(** * Offline collection layer of the Pokedex client

    A shallow embedding of the core of the Pokedex web client:
    - [src/src/features/pokedex/store/pokedex.store.ts] (the Zustand store
      holding [caughtIds] and its Dexie persistence),
    - [src/src/features/pokedex/utils/image-utils.ts]
      ([convertImageUrlToBase64]),
    - the PokeAPI service ([adaptPokemon], [getPokemonList]),
    - the search hook ([usePokemonSearch]) and the details hook
      ([usePokemonDetails]).

    Asynchronous code is modelled in a small monad [M]: a reader of the
    environment [Env] (the outcomes the browser, the network and IndexedDB
    give to each call), a state [World] (the store, the IndexedDB table, the
    logger and the trace of I/O calls issued) and the outcome of a promise
    ([Fulfilled] or [Rejected]).  [await] of a rejected promise throws, and
    [try_catch] is the JavaScript [try { ... } catch].

    A JavaScript string is modelled as a [string] whose characters are
    UTF-16 code units below 256 (Latin-1), one [ascii] each. *)

From stdpp Require Import base gmap strings list.
From Stdlib Require Import ZArith String Ascii Sorted Permutation.

Open Scope Z_scope.

(* ------------------------------------------------------------------ *)
(** ** Promises, errors and the domain records *)

(** The errors the browser APIs and Dexie reject with. *)
Inductive js_error :=
| NetworkError
| CorsError
| DecodeError
| QuotaExceededError
| ConstraintError
| AdapterTypeError.

(** The settled state of a promise. *)
Inductive outcome (A : Type) :=
| Fulfilled (a : A)
| Rejected (e : js_error).
Arguments Fulfilled {A} _.
Arguments Rejected {A} _.

Definition is_rejected {A} (o : outcome A) : bool :=
  match o with Rejected _ => true | Fulfilled _ => false end.

(** [Pokemon['stats']] of pokemon.service.ts. *)
Record Stats := mkStats {
  hp : Z; attack : Z; defense : Z;
  specialAttack : Z; specialDefense : Z; speed : Z
}.

(** The domain model [Pokemon] of pokemon.service.ts. *)
Record Pokemon := mkPokemon {
  p_id : Z;
  p_name : string;
  p_imageUrl : string;
  p_types : list string;
  p_height : Z;
  p_weight : Z;
  p_stats : Stats
}.

(** [CaughtPokemon] of lib/db.ts; [caughtAt] is the instant as a number of
    milliseconds and [note] is the optional annotation. *)
Record CaughtPokemon := mkCaught {
  c_id : Z;
  c_name : string;
  c_imageUrl : string;
  c_types : list string;
  c_caughtAt : Z;
  c_note : option string;
  c_height : Z;
  c_weight : Z;
  c_stats : Stats
}.

(** The argument of [catchPokemon]: [Omit<CaughtPokemon, 'caughtAt'>]. *)
Record CatchInput := mkCatchInput {
  i_id : Z;
  i_name : string;
  i_imageUrl : string;
  i_types : list string;
  i_note : option string;
  i_height : Z;
  i_weight : Z;
  i_stats : Stats
}.

(** The URLs the axios client [api] of [src/src/lib/axios.ts] is called
    with: [`/pokemon?limit=${limit}&offset=${offset}`] and
    [`/pokemon/${id}`] ([""] stands for an [undefined] id). *)
Inductive api_path :=
| PathList (limit offset : Z)
| PathDetail (id : string).

(** One call of the [logger] facade, per call site. *)
Inductive log_entry :=
| InfoApiRequest (method : string) (url : api_path)
| ErrorApiError (url : api_path) (message : js_error)
| WarnDuplicateCapture (name : string) (id : Z)
| ErrorCatchWriteFailed (e : js_error)
| ErrorReleaseFailed (e : js_error)
| WarnNoteTruncated (id : Z)
| ErrorNoteUpdateFailed (e : js_error)
| ErrorImageConversion (e : js_error)
| WarnRecoveredFailures (failedCount : nat)
| ErrorInitFailed (e : js_error).

(** The I/O calls a piece of code issues, in order. *)
Inductive io_call :=
| IoFetch (url : string)
| IoBlob
| IoReadAsDataURL
| IoDbAdd (r : CaughtPokemon)
| IoDbBulkDelete (ids : list Z)
| IoDbUpdate (id : Z) (note : string).

(** A stats entry of the raw PokeAPI payload:
    [{ base_stat: number; stat: { name: string } }]. *)
Record StatEntry := mkStatEntry { base_stat : Z; stat_name : string }.

(** The raw payload [PokeAPIResponse]; [sprites_other] is
    [sprites.other?.['official-artwork']?.front_default] ([None] when
    [other] is absent) and [types] is the list of [type.name]s. *)
Record PokeAPIResponse := mkPokeAPIResponse {
  r_id : Z;
  r_name : string;
  r_height : Z;
  r_weight : Z;
  sprites_front_default : string;
  sprites_other : option string;
  r_types : list string;
  r_stats : list StatEntry
}.

(** An item of [PokeAPIListResponse['results']] (also the search index
    entry returned by [getAllPokemonNames]). *)
Record ListItem := mkListItem { li_name : string; li_url : string }.

(** What the outside world answers: PokeAPI ([GET /pokemon?limit&offset] and
    [GET /pokemon/{id}]), the image CDN and the [FileReader]
    (responses and blobs are their bytes, as strings), the clock read by
    [new Date()], and the failures IndexedDB may raise on a write
    (quota, corruption). *)
Record Env := mkEnv {
  env_api_list : Z -> Z -> outcome (list ListItem);
  env_api_get : string -> outcome PokeAPIResponse;
  env_fetch : string -> outcome string;
  env_blob : string -> outcome string;
  env_readAsDataURL : string -> outcome string;
  env_now : Z;
  env_add_fault : CaughtPokemon -> option js_error;
  env_bulkDelete_fault : list Z -> option js_error;
  env_update_fault : Z -> string -> option js_error
}.

(** The mutable state: the Zustand store, the Dexie table [caughtPokemon],
    the log and the trace of I/O calls. *)
Record World := mkWorld {
  caughtIds : gset Z;
  isInitialized : bool;
  db : gmap Z CaughtPokemon;
  logs : list log_entry;
  trace : list io_call
}.

(* ------------------------------------------------------------------ *)
(** ** The async monad *)

Definition M (A : Type) : Type := Env -> World -> outcome A * World.

Global Instance M_ret : MRet M := fun A a _ w => (Fulfilled a, w).
Global Instance M_bind : MBind M := fun A B f m env w =>
  match m env w with
  | (Fulfilled a, w') => f a env w'
  | (Rejected e, w') => (Rejected e, w')
  end.

(** [throw e]. *)
Definition throw {A} (e : js_error) : M A := fun _ w => (Rejected e, w).

(** [await p] for a promise already settled with [o]. *)
Definition await {A} (o : outcome A) : M A := fun _ w => (o, w).

(** [try { body } catch (e) { handler(e) }]. *)
Definition try_catch {A} (body : M A) (handler : js_error -> M A) : M A :=
  fun env w =>
    match body env w with
    | (Fulfilled a, w') => (Fulfilled a, w')
    | (Rejected e, w') => handler e env w'
    end.

Definition ask : M Env := fun env w => (Fulfilled env, w).
Definition get_world : M World := fun _ w => (Fulfilled w, w).
Definition put_world (w : World) : M unit := fun _ _ => (Fulfilled tt, w).

Definition log (l : log_entry) : M unit := fun _ w =>
  (Fulfilled tt, mkWorld (caughtIds w) (isInitialized w) (db w)
                         (logs w ++ [l]) (trace w)).

Definition issue (c : io_call) : M unit := fun _ w =>
  (Fulfilled tt, mkWorld (caughtIds w) (isInitialized w) (db w)
                         (logs w) (trace w ++ [c])).

(** Zustand's [get().caughtIds] and [set({ caughtIds })]. *)
Definition get_caughtIds : M (gset Z) := fun _ w => (Fulfilled (caughtIds w), w).
Definition set_caughtIds (s : gset Z) : M unit := fun _ w =>
  (Fulfilled tt, mkWorld s (isInitialized w) (db w) (logs w) (trace w)).

Definition set_db (t : gmap Z CaughtPokemon) : M unit := fun _ w =>
  (Fulfilled tt, mkWorld (caughtIds w) (isInitialized w) t (logs w) (trace w)).
Definition get_db : M (gmap Z CaughtPokemon) := fun _ w => (Fulfilled (db w), w).

(* ------------------------------------------------------------------ *)
(** ** The Dexie table [db.caughtPokemon] *)

(** [db.caughtPokemon.add(record)]: rejects with a [ConstraintError] when the
    primary key already exists, or with whatever IndexedDB raises. *)
Definition db_add (r : CaughtPokemon) : M unit :=
  issue (IoDbAdd r);;
  env ← ask;
  t ← get_db;
  match t !! c_id r with
  | Some _ => throw ConstraintError
  | None =>
      match env_add_fault env r with
      | Some e => throw e
      | None => set_db (<[c_id r := r]> t)
      end
  end.

(** [db.caughtPokemon.bulkDelete(ids)]. *)
Definition db_bulkDelete (ids : list Z) : M unit :=
  issue (IoDbBulkDelete ids);;
  env ← ask;
  t ← get_db;
  match env_bulkDelete_fault env ids with
  | Some e => throw e
  | None => set_db (foldl (fun m k => delete k m) t ids)
  end.

(** [db.caughtPokemon.update(id, { note })]: Dexie modifies the record when
    the key exists and resolves (with 0 updated rows) when it does not. *)
Definition db_update_note (id : Z) (note : string) : M unit :=
  issue (IoDbUpdate id note);;
  env ← ask;
  t ← get_db;
  match env_update_fault env id note with
  | Some e => throw e
  | None =>
      set_db (alter (fun r => mkCaught (c_id r) (c_name r) (c_imageUrl r)
                                (c_types r) (c_caughtAt r) (Some note)
                                (c_height r) (c_weight r) (c_stats r)) id t)
  end.

(* ------------------------------------------------------------------ *)
(** ** image-utils.ts *)

(** [convertImageUrlToBase64].  The [try] block [return]s the promise built
    around the [FileReader] without awaiting it: the block completes normally
    with that pending promise, and the async function's promise adopts its
    outcome after the [catch] has been left.  This is why the try-block value
    is itself an [outcome] that is awaited after [try_catch]. *)
Definition convertImageUrlToBase64 (imageUrl : string) : M string :=
  p ← try_catch
        (env ← ask;
         issue (IoFetch imageUrl);;
         response ← await (env_fetch env imageUrl);
         issue IoBlob;;
         blob ← await (env_blob env response);
         issue IoReadAsDataURL;;
         (* return new Promise((resolve, reject) => { reader.onloadend =
            resolve(reader.result); reader.onerror = reject; ... }) *)
         mret (env_readAsDataURL env blob))
        (fun error =>
           log (ErrorImageConversion error);;
           mret (Fulfilled imageUrl));
  await p.

(* ------------------------------------------------------------------ *)
(** ** pokedex.store.ts *)

Definition MAX_NOTE_LENGTH : nat := 200.

(** [{ ...pokemon, imageUrl: offlineImage, caughtAt: new Date() }]. *)
Definition caught_record (pokemon : CatchInput) (offlineImage : string)
    (now : Z) : CaughtPokemon :=
  mkCaught (i_id pokemon) (i_name pokemon) offlineImage (i_types pokemon)
    now (i_note pokemon) (i_height pokemon) (i_weight pokemon)
    (i_stats pokemon).

(** [catchPokemon]. *)
Definition catchPokemon (pokemon : CatchInput) : M unit :=
  currentIds ← get_caughtIds;
  if decide (i_id pokemon ∈ currentIds) then
    log (WarnDuplicateCapture (i_name pokemon) (i_id pokemon))
  else
    let previousState := currentIds in
    let nextState := previousState ∪ {[i_id pokemon]} in
    set_caughtIds nextState;;
    try_catch
      (offlineImage ← convertImageUrlToBase64 (i_imageUrl pokemon);
       env ← ask;
       db_add (caught_record pokemon offlineImage (env_now env)))
      (fun error =>
         log (ErrorCatchWriteFailed error);;
         set_caughtIds previousState).

(** [releasePokemon]. *)
Definition releasePokemon (ids : list Z) : M unit :=
  match ids with
  | [] => mret tt
  | _ =>
      currentIds ← get_caughtIds;
      let previousState := currentIds in
      let nextState := foldl (fun s id => s ∖ {[id]}) previousState ids in
      set_caughtIds nextState;;
      try_catch
        (db_bulkDelete ids)
        (fun error =>
           log (ErrorReleaseFailed error);;
           set_caughtIds previousState)
  end.

(** The code units below 256 that [String.prototype.trim] removes
    (WhiteSpace and LineTerminator): TAB, LF, VT, FF, CR, SPACE and
    NO-BREAK SPACE (U+00A0). *)
Definition is_js_whitespace (c : ascii) : bool :=
  let n := nat_of_ascii c in
  ((n =? 9) || (n =? 10) || (n =? 11) || (n =? 12) || (n =? 13) || (n =? 32)
   || (n =? 160))%nat.

Fixpoint drop_leading_ws (l : list ascii) : list ascii :=
  match l with
  | c :: l' => if is_js_whitespace c then drop_leading_ws l' else l
  | [] => []
  end.

(** [note.trim()]. *)
Definition js_trim (s : string) : string :=
  string_of_list_ascii
    (List.rev (drop_leading_ws (List.rev (drop_leading_ws (list_ascii_of_string s))))).

(** [updatePokemonNote]. *)
Definition updatePokemonNote (id : Z) (note : string) : M unit :=
  let safeNote := js_trim note in
  safeNote ← (if decide (MAX_NOTE_LENGTH < String.length safeNote)%nat then
                log (WarnNoteTruncated id);;
                mret (substring 0 MAX_NOTE_LENGTH safeNote)
              else mret safeNote);
  try_catch
    (db_update_note id safeNote)
    (fun error => log (ErrorNoteUpdateFailed error)).

(* ------------------------------------------------------------------ *)
(** ** pokemon.service.ts *)

(** [data.stats.find((s) => s.stat.name === n)?.base_stat || 0]. *)
Definition find_base_stat (stats : list StatEntry) (n : string) : Z :=
  match List.find (fun s => String.eqb (stat_name s) n) stats with
  | Some s => if Z.eqb (base_stat s) 0 then 0 else base_stat s
  | None => 0
  end.

(** [adaptPokemon]. *)
Definition adaptPokemon (data : PokeAPIResponse) : Pokemon :=
  mkPokemon (r_id data) (r_name data)
    (match sprites_other data with
     | Some art => if String.eqb art "" then sprites_front_default data else art
     | None => sprites_front_default data
     end)
    (r_types data) (r_height data) (r_weight data)
    (mkStats (find_base_stat (r_stats data) "hp")
             (find_base_stat (r_stats data) "attack")
             (find_base_stat (r_stats data) "defense")
             (find_base_stat (r_stats data) "special-attack")
             (find_base_stat (r_stats data) "special-defense")
             (find_base_stat (r_stats data) "speed")).

Fixpoint split_on (sep : ascii) (cur : string) (s : string) : list string :=
  match s with
  | EmptyString => [cur]
  | String c s' =>
      if Ascii.eqb c sep then cur :: split_on sep EmptyString s'
      else split_on sep (cur ++ String c EmptyString)%string s'
  end.

(** [url.split('/').filter(Boolean).pop()] ([""] stands for [undefined]). *)
Definition url_id (url : string) : string :=
  List.last (List.filter (fun seg => negb (String.eqb seg "")) (split_on "/" "" url)) "".

Definition outcome_map {A B} (f : A -> B) (o : outcome A) : outcome B :=
  match o with Fulfilled a => Fulfilled (f a) | Rejected e => Rejected e end.

Definition outcome_value {A} (o : outcome A) : option A :=
  match o with Fulfilled a => Some a | Rejected _ => None end.

(** The request interceptor of [lib/axios.ts]:
    [logger.info(`[API Request] ${method} ${url}`)]. *)
Definition request_log (url : api_path) : log_entry := InfoApiRequest "GET" url.

(** The response interceptor: a response passes through; an error is
    logged ([logger.error(`[API Error] ${url}`, message)]) and rethrown. *)
Definition error_log {A} (url : api_path) (o : outcome A) : list log_entry :=
  match o with
  | Fulfilled _ => []
  | Rejected e => [ErrorApiError url e]
  end.

(** [logger] calls in sequence. *)
Definition log_all (ls : list log_entry) : M unit := fun _ w =>
  (Fulfilled tt, mkWorld (caughtIds w) (isInitialized w) (db w)
                         (logs w ++ ls) (trace w)).

(** [await api.get(url)] of one request: the request interceptor, the
    response [o], then the response interceptor. *)
Definition api_get {A} (url : api_path) (o : outcome A) : M A :=
  log (request_log url);;
  log_all (error_log url o);;
  await o.

(** The path of the detail request of a resource URL. *)
Definition detail_path (url : string) : api_path := PathDetail (url_id url).

(** The value the async mapper of [getPokemonList] and of the search
    hydration settles with:
    [const { data } = await api.get(`/pokemon/${id}`); return adaptPokemon(data)]. *)
Definition fetch_details (env : Env) (url : string) : outcome Pokemon :=
  outcome_map adaptPokemon (env_api_get env (url_id url)).

(** The detail requests of [urls] issued together by [urls.map(async ...)]:
    every [api.get] is called before any response arrives, so the request
    interceptor logs them in call order; then each failed response is
    logged by the error interceptor.  The failures are logged here in call
    order; in the browser the network decides that order.  The result is
    the list of settled mapper promises. *)
Definition hydrate (urls : list string) : M (list (outcome Pokemon)) :=
  env ← ask;
  let results := map (fetch_details env) urls in
  log_all (map (fun u => request_log (detail_path u)) urls);;
  log_all (List.concat (map (fun u => error_log (detail_path u) (fetch_details env u)) urls));;
  mret results.

(** [getPokemonList]. *)
Definition getPokemonList (limit offset : Z) : M (list Pokemon) :=
  env ← ask;
  data ← api_get (PathList limit offset) (env_api_list env limit offset);
  promises ← hydrate (map li_url data);
  (* Promise.allSettled: every promise is settled *)
  let results := promises in
  let successfulPokemons :=
    omap outcome_value (List.filter (fun r => negb (is_rejected r)) results) in
  let failedCount := (List.length results - List.length successfulPokemons)%nat in
  (if decide (0 < failedCount)%nat
   then log (WarnRecoveredFailures failedCount)
   else mret tt);;
  mret successfulPokemons.

(** The kinds of logger lines the feed writes. *)
Definition is_recovered_warning (l : log_entry) : bool :=
  match l with WarnRecoveredFailures _ => true | _ => false end.
Definition is_api_request (l : log_entry) : bool :=
  match l with InfoApiRequest _ _ => true | _ => false end.
Definition is_api_error (l : log_entry) : bool :=
  match l with ErrorApiError _ _ => true | _ => false end.

(* ------------------------------------------------------------------ *)
(** ** usePokemonSearch.ts *)

(** [String.prototype.toLowerCase] on a code unit below 256: A-Z and
    U+00C0-U+00DE except U+00D7 move down by 32. *)
Definition ascii_toLower (c : ascii) : ascii :=
  let n := nat_of_ascii c in
  if ((65 <=? n) && (n <=? 90)
      || (192 <=? n) && (n <=? 222) && negb (n =? 215))%nat
  then ascii_of_nat (n + 32) else c.

Definition toLowerCase (s : string) : string :=
  string_of_list_ascii (map ascii_toLower (list_ascii_of_string s)).

(** [s.startsWith(prefix)]. *)
Definition startsWith (s prefix : string) : bool := String.prefix prefix s.

(** [const isSearching = searchQuery.length >= 2]. *)
Definition isSearching (searchQuery : string) : bool :=
  (2 <=? String.length searchQuery)%nat.

(** STEP 1 of the query function: the client-side filter. *)
Definition searchFilter (searchQuery : string) (allNames : list ListItem)
    : list ListItem :=
  List.filter (fun p => startsWith (toLowerCase (li_name p))
                                   (toLowerCase searchQuery)) allNames.

(** STEP 2: [filtered.slice(0, 20 * page)]. *)
Definition itemsToShow (filtered : list ListItem) (page : nat) : list ListItem :=
  firstn (20 * page) filtered.

(** [Promise.all]: the values in order, or the first rejection. *)
Fixpoint promise_all {A} (ps : list (outcome A)) : outcome (list A) :=
  match ps with
  | [] => Fulfilled []
  | Fulfilled a :: ps' =>
      match promise_all ps' with
      | Fulfilled l => Fulfilled (a :: l)
      | Rejected e => Rejected e
      end
  | Rejected e :: _ => Rejected e
  end.

(** The [queryFn] of QUERY B (run once [allNames] is loaded and
    [isSearching] holds). *)
Definition searchQueryFn (searchQuery : string) (page : nat)
    (allNames : option (list ListItem)) : M (list Pokemon) :=
  match allNames with
  | None => mret []
  | Some allNames =>
      let filtered := searchFilter searchQuery allNames in
      let shown := itemsToShow filtered page in
      promises ← hydrate (map li_url shown);
      (* Promise.all: rejects with the first failure; the other requests
         still complete and go through the interceptors *)
      await (promise_all promises)
  end.

(* ------------------------------------------------------------------ *)
(** ** usePokemonDetails.ts *)

(** [const isSharedView = !!searchParams.get('caughtAt')]. *)
Definition isSharedView (sharedDateStr : option string) : bool :=
  match sharedDateStr with
  | Some s => negb (String.eqb s "")
  | None => false
  end.

(** The value the hook shows: the API's [Pokemon] or the local record. *)
Inductive DetailsValue :=
| ApiValue (p : Pokemon)
| LocalValue (c : CaughtPokemon).

(** The inputs of the hook at one render: the [caughtAt] search parameter,
    the local lookup state and the React Query state. *)
Record DetailsInputs := mkDetailsInputs {
  sharedDateStr : option string;
  localPokemon : option CaughtPokemon;
  isLocalLoading : bool;
  apiPokemon : option Pokemon;
  isApiLoading : bool;
  isApiError : bool
}.

(** 4. DATA MERGE STRATEGY. *)
Definition mergePokemon (shared : bool) (local : option CaughtPokemon)
    (api : option Pokemon) : option DetailsValue :=
  if shared then option_map ApiValue api
  else match local with
       | Some l => Some (LocalValue l)
       | None => option_map ApiValue api
       end.

Definition details_pokemon (d : DetailsInputs) : option DetailsValue :=
  mergePokemon (isSharedView (sharedDateStr d)) (localPokemon d) (apiPokemon d).

(** [isEffectiveLoading]. *)
Definition isEffectiveLoading (d : DetailsInputs) : bool :=
  (isApiLoading d || (isLocalLoading d && negb (isSharedView (sharedDateStr d))))
  && negb (bool_decide (is_Some (details_pokemon d))).

(** [isEffectiveError]. *)
Definition isEffectiveError (d : DetailsInputs) : bool :=
  isApiError d && negb (bool_decide (is_Some (localPokemon d)))
  && negb (isSharedView (sharedDateStr d)) && negb (isLocalLoading d).

(* ------------------------------------------------------------------ *)
(** ** pokedex.store.ts: [initialize] *)

(** [set({ caughtIds: ids, isInitialized: true })]. *)
Definition set_initialized (ids : gset Z) : M unit := fun _ w =>
  (Fulfilled tt, mkWorld ids true (db w) (logs w) (trace w)).

(** [db.caughtPokemon.toArray()]: the records of the table, or the error the
    read raises ([readFault]). *)
Definition db_toArray (readFault : option js_error) : M (list CaughtPokemon) :=
  t ← get_db;
  match readFault with
  | Some e => throw e
  | None => mret (map snd (map_to_list t))
  end.

(** [initialize]. *)
Definition initialize (readFault : option js_error) : M unit :=
  w ← get_world;
  if isInitialized w then mret tt
  else
    try_catch
      (allPokemon ← db_toArray readFault;
       let ids := list_to_set (map c_id allPokemon) in
       set_initialized ids)
      (fun e => log (ErrorInitFailed e)).

(** Dexie's inline primary key: every record is stored under its own [id]. *)
Definition keys_inline (t : gmap Z CaughtPokemon) : Prop :=
  map_Forall (fun k r => c_id r = k) t.

(** The store mirrors the table: [caughtIds] is the set of stored ids. *)
Definition store_consistent (w : World) : Prop :=
  keys_inline (db w) /\ caughtIds w = dom (db w).

(* ------------------------------------------------------------------ *)
(** ** usePokemonList.ts *)

(** [getNextPageParam(lastPage, allPages)] ([None] is [undefined]). *)
Definition getNextPageParam (lastPage : list Pokemon) (allPages : list (list Pokemon))
    : option Z :=
  match lastPage with
  | [] => None
  | _ => Some (Z.of_nat (List.length allPages) * 20)
  end.

(* ------------------------------------------------------------------ *)
(** ** usePokemonSearch.ts: metrics *)

(** [totalResults]. *)
Definition totalResults (searchQuery : string) (allNames : option (list ListItem)) : nat :=
  match allNames with
  | Some l => List.length (searchFilter searchQuery l)
  | None => 0
  end.

(** [hasMoreResults = (searchResults?.length || 0) < totalResults]. *)
Definition hasMoreResults (searchQuery : string) (allNames : option (list ListItem))
    (searchResults : option (list Pokemon)) : bool :=
  let currentCount := match searchResults with Some r => List.length r | None => 0%nat end in
  (currentCount <? totalResults searchQuery allNames)%nat.

(* ------------------------------------------------------------------ *)
(** ** useCatchButtonLogic.tsx *)

(** The object passed to [catchPokemon] (no note). *)
Definition toCatchInput (pokemon : Pokemon) : CatchInput :=
  mkCatchInput (p_id pokemon) (p_name pokemon) (p_imageUrl pokemon)
    (p_types pokemon) None (p_height pokemon) (p_weight pokemon)
    (p_stats pokemon).

(** [handleClick]: [renderedIds] is the [caughtIds] the hook rendered with
    ([isCaught] is computed at render time). *)
Definition handleClick (renderedIds : gset Z) (pokemon : Pokemon) (disabled : bool)
    : M unit :=
  let isCaught := bool_decide (p_id pokemon ∈ renderedIds) in
  if isCaught || disabled then mret tt
  else catchPokemon (toCatchInput pokemon).

(* ------------------------------------------------------------------ *)
(** ** usePokedexCollection.ts *)

Inductive SortOption :=
| CaughtAtDesc | CaughtAtAsc | NameAsc | NameDesc | IdAsc | IdDesc
| HeightDesc | HeightAsc | WeightDesc | WeightAsc.

(** [s.includes(q)]. *)
Definition includes (s q : string) : bool :=
  match String.index 0 q s with
  | Some _ => true
  | None => false
  end.

(** The comparator passed to [result.sort]; [localeCompare] is
    [String.prototype.localeCompare], which depends on the locale. *)
Definition compare_by (localeCompare : string -> string -> Z) (sortBy : SortOption)
    (a b : CaughtPokemon) : Z :=
  match sortBy with
  | CaughtAtDesc => c_caughtAt b - c_caughtAt a
  | CaughtAtAsc => c_caughtAt a - c_caughtAt b
  | NameAsc => localeCompare (c_name a) (c_name b)
  | NameDesc => localeCompare (c_name b) (c_name a)
  | IdAsc => c_id a - c_id b
  | IdDesc => c_id b - c_id a
  | HeightDesc => c_height b - c_height a
  | HeightAsc => c_height a - c_height b
  | WeightDesc => c_weight b - c_weight a
  | WeightAsc => c_weight a - c_weight b
  end.

(** [Array.prototype.sort(cmp)]: a stable sort (ES2019), which for a
    consistent comparator leaves one possible result.  [insert_by cmp x l]
    puts [x] before the first [y] with [cmp x y <= 0]. *)
Fixpoint insert_by (cmp : CaughtPokemon -> CaughtPokemon -> Z) (x : CaughtPokemon)
    (l : list CaughtPokemon) : list CaughtPokemon :=
  match l with
  | [] => [x]
  | y :: l' => if Z.ltb 0 (cmp x y) then y :: insert_by cmp x l' else x :: l
  end.

Fixpoint sort_by (cmp : CaughtPokemon -> CaughtPokemon -> Z) (l : list CaughtPokemon)
    : list CaughtPokemon :=
  match l with
  | [] => []
  | x :: l' => insert_by cmp x (sort_by cmp l')
  end.

(** [processedPokemons]: the name filter (when [searchQuery] is not empty),
    the type filter (when [selectedType] is set and not empty), then the sort. *)
Definition processedPokemons (localeCompare : string -> string -> Z)
    (myPokemons : list CaughtPokemon) (searchQuery : string)
    (selectedType : option string) (sortBy : SortOption) : list CaughtPokemon :=
  let result := myPokemons in
  let result :=
    if String.eqb searchQuery "" then result
    else let q := toLowerCase searchQuery in
         List.filter (fun p => includes (toLowerCase (c_name p)) q) result in
  let result :=
    match selectedType with
    | Some t =>
        if String.eqb t "" then result
        else List.filter (fun p => existsb (String.eqb t) (c_types p)) result
    | None => result
    end in
  sort_by (compare_by localeCompare sortBy) result.

(** [togglePokemonSelection(id)]. *)
Definition togglePokemonSelection (selectedIds : gset Z) (id : Z) : gset Z :=
  if decide (id ∈ selectedIds) then selectedIds ∖ {[id]} else selectedIds ∪ {[id]}.

(** [selectAll()], given [processedPokemons]. *)
Definition selectAll (selectedIds : gset Z) (processed : list CaughtPokemon) : gset Z :=
  if decide (size selectedIds = List.length processed) then ∅
  else list_to_set (map c_id processed).

(** [handleRelease()] on the state [(isSelectionMode, selectedIds)].
    [Array.from(selectedIds)] is taken as [elements selectedIds]. *)
Definition handleRelease (isSelectionMode : bool) (selectedIds : gset Z)
    : M (bool * gset Z) :=
  if decide (size selectedIds = 0%nat) then mret (isSelectionMode, selectedIds)
  else
    releasePokemon (elements selectedIds);;
    mret (false, ∅).

(* ------------------------------------------------------------------ *)
(** ** csv-export.ts *)

Definition quote : ascii := "034".

(** [note.replace(/QUOTE/g, QUOTE QUOTE)]: every double quote doubled. *)
Fixpoint escape_quotes (s : string) : string :=
  match s with
  | EmptyString => EmptyString
  | String c s' =>
      if Ascii.eqb c quote then String quote (String quote (escape_quotes s'))
      else String c (escape_quotes s')
  end.

(** [safeNote]: a note is wrapped in quotes with its quotes doubled; a
    missing or empty note (falsy) gives the empty field. *)
Definition safeNote (note : option string) : string :=
  match note with
  | Some n =>
      if String.eqb n "" then ""
      else String quote (escape_quotes n ++ String quote EmptyString)
  | None => ""
  end.

(** The reader's side (RFC 4180, section 2): the content of a quoted field,
    where a doubled quote stands for one quote and a single quote ends the
    field. *)
Fixpoint rfc4180_quoted_body (s : string) : option string :=
  match s with
  | EmptyString => None
  | String c s' =>
      if Ascii.eqb c quote then
        match s' with
        | EmptyString => Some EmptyString
        | String c' s'' =>
            if Ascii.eqb c' quote then option_map (String quote) (rfc4180_quoted_body s'')
            else None
        end
      else option_map (String c) (rfc4180_quoted_body s')
  end.

Definition rfc4180_unquote (field : string) : option string :=
  match field with
  | String c s => if Ascii.eqb c quote then rfc4180_quoted_body s else None
  | EmptyString => None
  end.

(* ------------------------------------------------------------------ *)
(** ** Sample inputs *)

Definition pikachu_stats : Stats := mkStats 35 55 40 50 50 90.

Definition pikachu_input : CatchInput :=
  mkCatchInput 25 "pikachu" "https://img.example/25.png" ["electric"] None
    4 60 pikachu_stats.

(** An initialised store with an empty collection. *)
Definition empty_world : World := mkWorld ∅ true ∅ [] [].

(** An environment in which the image download and blob succeed, the
    [FileReader] settles with [reader], and the Dexie writes fail as given. *)
Definition sample_env (reader : outcome string) (add_fault : option js_error)
    (delete_fault : option js_error) : Env :=
  mkEnv (fun _ _ => Fulfilled []) (fun _ => Rejected NetworkError)
    (fun _ => Fulfilled "png-bytes") (fun b => Fulfilled b)
    (fun _ => reader) 1700000000000
    (fun _ => add_fault) (fun _ => delete_fault) (fun _ _ => None).

(** The same, with the image download failing (offline or CORS). *)
Definition offline_env : Env :=
  mkEnv (fun _ _ => Fulfilled []) (fun _ => Rejected NetworkError)
    (fun _ => Rejected CorsError) (fun b => Fulfilled b)
    (fun _ => Rejected DecodeError) 1700000000000
    (fun _ => None) (fun _ => None) (fun _ _ => None).

(** [c.repeat(n)] for a one-character string [c]. *)
Fixpoint repeat_char (n : nat) (c : ascii) : string :=
  match n with
  | O => EmptyString
  | S n' => String c (repeat_char n' c)
  end.

(** A record with id 25 in the table, without a note. *)
Definition pikachu_record : CaughtPokemon :=
  caught_record pikachu_input "data:image/png;base64,AA" 1700000000000.

Definition world_with_pikachu : World :=
  mkWorld {[25]} true {[25 := pikachu_record]} [] [].

Definition pikachu_payload : PokeAPIResponse :=
  mkPokeAPIResponse 25 "pikachu" 4 60 "front/25.png" (Some "artwork/25.png")
    ["electric"]
    [mkStatEntry 35 "hp"; mkStatEntry 55 "attack"; mkStatEntry 40 "defense";
     mkStatEntry 50 "special-attack"; mkStatEntry 50 "special-defense";
     mkStatEntry 90 "speed"].

(** A PokeAPI whose list endpoint returns [items] and whose detail endpoint
    answers [get]. *)
Definition api_env (items : list ListItem)
    (get : string -> outcome PokeAPIResponse) : Env :=
  mkEnv (fun _ _ => Fulfilled items) get
    (fun _ => Fulfilled "png-bytes") (fun b => Fulfilled b)
    (fun _ => Fulfilled "AA") 1700000000000
    (fun _ => None) (fun _ => None) (fun _ _ => None).

(** Only id 25 can be looked up. *)
Definition get_only_25 (id : string) : outcome PokeAPIResponse :=
  if String.eqb id "25" then Fulfilled pikachu_payload else Rejected NetworkError.

Definition item_25 : ListItem :=
  mkListItem "pikachu" "https://pokeapi.co/api/v2/pokemon/25/".
Definition item_26 : ListItem :=
  mkListItem "raichu" "https://pokeapi.co/api/v2/pokemon/26/".

Definition name_entry (n : string) (id : string) : ListItem :=
  mkListItem n ("https://pokeapi.co/api/v2/pokemon/" ++ id ++ "/")%string.

Definition sample_index : list ListItem :=
  [name_entry "pikachu" "25"; name_entry "pidgey" "16";
   name_entry "bulbasaur" "1"].

(** A detail view opened from a shared link while the viewer owns the same
    Pokemon locally. *)
Definition shared_inputs : DetailsInputs :=
  mkDetailsInputs (Some "2024-05-01T10:00:00.000Z") (Some pikachu_record) false
    (Some (adaptPokemon pikachu_payload)) false false.

(* ================================================================== *)
(** * Properties *)

Ltac unfold_m :=
  unfold mbind, M_bind, mret, M_ret, try_catch, ask, get_db, set_db, issue,
    log, log_all, await, throw, get_caughtIds, set_caughtIds in *; simpl in *.

Ltac run_store :=
  unfold catchPokemon, releasePokemon, convertImageUrlToBase64, db_add,
    db_bulkDelete, caught_record, is_rejected in *;
  unfold_m;
  repeat (case_match; simplify_eq/=).

Example catch_fresh_example :
  caughtIds (snd (catchPokemon pikachu_input
                    (sample_env (Fulfilled "data:image/png;base64,AA") None None)
                    empty_world)) = {[25]}.
Proof. vm_compute. reflexivity. Qed.

(** C1: when the id is new and either the embedding step rejects or the
    durable insert fails (the key is already in the table, or IndexedDB
    raises), [catchPokemon] ends with [caughtIds] equal to the pre-capture
    snapshot, the table unchanged and the failure logged. *)
Theorem catchPokemon_rollback (env : Env) (w : World) (pokemon : CatchInput) :
  i_id pokemon ∉ caughtIds w ->
  (is_rejected (fst (convertImageUrlToBase64 (i_imageUrl pokemon) env w)) = true
   \/ (exists img,
         fst (convertImageUrlToBase64 (i_imageUrl pokemon) env w) = Fulfilled img
         /\ (is_Some (db w !! i_id pokemon)
             \/ is_Some (env_add_fault env
                           (caught_record pokemon img (env_now env)))))) ->
  let w' := snd (catchPokemon pokemon env w) in
  caughtIds w' = caughtIds w /\ db w' = db w
  /\ exists e, ErrorCatchWriteFailed e ∈ logs w'.
Proof.
  intros Hnew Hfail. simpl.
  destruct Hfail as [Hr | (img & Himg & Hins)];
    [| destruct Hins as [[r Hr] | [e He]]];
    run_store; try contradiction; try congruence;
    (split; [reflexivity | split; [reflexivity | ]]);
    eexists; apply elem_of_app; right; apply list_elem_of_singleton;
    reflexivity.
Qed.

Lemma catchPokemon_rollback_witness :
  caughtIds (snd (catchPokemon pikachu_input
                    (sample_env (Rejected DecodeError) None None) empty_world))
    = caughtIds empty_world.
Proof.
  apply (catchPokemon_rollback (sample_env (Rejected DecodeError) None None)
           empty_world pikachu_input).
  - simpl. apply not_elem_of_empty.
  - left. vm_compute. reflexivity.
Defined.

(** C2: capturing an id already in [caughtIds] settles normally (no error),
    issues no I/O call at all (no image fetch, no write to the table), leaves
    the store and the table unchanged and logs one duplicate warning. *)
Theorem catchPokemon_duplicate_noop (env : Env) (w : World) (pokemon : CatchInput) :
  i_id pokemon ∈ caughtIds w ->
  catchPokemon pokemon env w =
    (Fulfilled tt,
     mkWorld (caughtIds w) (isInitialized w) (db w)
       (logs w ++ [WarnDuplicateCapture (i_name pokemon) (i_id pokemon)])
       (trace w)).
Proof.
  intros Hin. unfold catchPokemon. unfold_m.
  destruct (decide (i_id pokemon ∈ caughtIds w)) as [_ | Hn];
    [reflexivity | contradiction].
Qed.

Lemma catchPokemon_duplicate_noop_witness :
  catchPokemon pikachu_input (sample_env (Fulfilled "AA") None None)
    (mkWorld {[25]} true ∅ [] []) =
  (Fulfilled tt, mkWorld {[25]} true ∅ [WarnDuplicateCapture "pikachu" 25] []).
Proof.
  rewrite (catchPokemon_duplicate_noop (sample_env (Fulfilled "AA") None None)
             (mkWorld {[25]} true ∅ [] []) pikachu_input).
  - reflexivity.
  - simpl. apply elem_of_singleton. reflexivity.
Defined.

(** C5: for an id not yet captured, [catchPokemon] followed by
    [releasePokemon [id]] whose bulk delete succeeds gives back the
    pre-capture [caughtIds], whatever the capture's own I/O did. *)
Theorem catch_release_roundtrip (env : Env) (w : World) (pokemon : CatchInput) :
  i_id pokemon ∉ caughtIds w ->
  env_bulkDelete_fault env [i_id pokemon] = None ->
  caughtIds (snd (releasePokemon [i_id pokemon] env
                    (snd (catchPokemon pokemon env w)))) = caughtIds w.
Proof.
  intros Hnew Hdel. run_store; try contradiction; try congruence;
    apply set_eq; set_solver.
Qed.

Lemma catch_release_roundtrip_witness :
  caughtIds (snd (releasePokemon [25] (sample_env (Fulfilled "AA") None None)
                    (snd (catchPokemon pikachu_input
                            (sample_env (Fulfilled "AA") None None)
                            (mkWorld {[7]} true ∅ [] []))))) = {[7]}.
Proof.
  exact (catch_release_roundtrip (sample_env (Fulfilled "AA") None None)
           (mkWorld {[7]} true ∅ [] []) pikachu_input
           ltac:(simpl; rewrite elem_of_singleton; discriminate)
           eq_refl).
Defined.

(* ------------------------------------------------------------------ *)
(** *** Annotations *)

Lemma substring_0_long (n : nat) (s : string) :
  (String.length s <= n)%nat -> substring 0 n s = s.
Proof.
  revert n. induction s as [| c s IH]; intros n Hn; destruct n; simpl in *;
    try reflexivity; try lia.
  rewrite IH by lia. reflexivity.
Qed.

Lemma substring_0_length (n : nat) (s : string) :
  (String.length (substring 0 n s) <= n)%nat.
Proof.
  revert n. induction s as [| c s IH]; intros n; destruct n; simpl; try lia.
  specialize (IH n). lia.
Qed.

Definition set_note (note : string) (r : CaughtPokemon) : CaughtPokemon :=
  mkCaught (c_id r) (c_name r) (c_imageUrl r) (c_types r) (c_caughtAt r)
    (Some note) (c_height r) (c_weight r) (c_stats r).

Example trim_example : js_trim (String " " (String "a" (String "b" (String "010" EmptyString)))) = "ab".
Proof. reflexivity. Qed.

Example trim_nbsp_example : js_trim (String "160" (String "h" (String "i" EmptyString))) = "hi".
Proof. reflexivity. Qed.

(** C7 (as amended): [updatePokemonNote id note] never rejects; it issues
    exactly one write, [update(id, { note: safe })], where [safe] is
    [note.trim()] cut to its first 200 characters (so at most 200 long); it
    logs a truncation warning exactly when the trimmed text is longer than
    200 and an error when the write fails; when the write succeeds the
    record's note becomes [safe]; the collection is untouched.  In
    particular, a 250-character input with no leading or trailing
    whitespace is written as exactly its first 200 characters. *)
Theorem updatePokemonNote_truncates (env : Env) (w : World) (id : Z) (note : string) :
  let safe := substring 0 200 (js_trim note) in
  let '(r, w') := updatePokemonNote id note env w in
  r = Fulfilled tt
  /\ (String.length safe <= 200)%nat
  /\ trace w' = trace w ++ [IoDbUpdate id safe]
  /\ caughtIds w' = caughtIds w
  /\ logs w' = logs w
               ++ (if decide (200 < String.length (js_trim note))%nat
                   then [WarnNoteTruncated id] else [])
               ++ (match env_update_fault env id safe with
                   | Some e => [ErrorNoteUpdateFailed e] | None => [] end)
  /\ (env_update_fault env id safe = None -> db w' = alter (set_note safe) id (db w))
  /\ (js_trim note = note -> String.length note = 250%nat ->
      safe = substring 0 200 note).
Proof.
  simpl. unfold updatePokemonNote, db_update_note. unfold_m.
  unfold MAX_NOTE_LENGTH in *.
  destruct (decide (200 < String.length (js_trim note))%nat) as [Hlt | Hle];
    [| rewrite (substring_0_long 200 (js_trim note)) by lia];
    simpl in *;
    destruct (env_update_fault env id _) as [e |] eqn:Hf; simpl;
    rewrite ?app_nil_r, <- ?app_assoc;
    (split; [reflexivity |]);
    (split; [first [apply substring_0_length | lia] |]);
    (split; [reflexivity |]); (split; [reflexivity |]);
    (split; [reflexivity |]);
    (split; [first [discriminate | reflexivity] |]);
    intros Ht Hl; rewrite Ht in *; try reflexivity; lia.
Qed.

Lemma updatePokemonNote_truncates_witness :
  let note := repeat_char 250 "a" in
  let '(r, w') := updatePokemonNote 25 note (sample_env (Fulfilled "AA") None None)
                    world_with_pikachu in
  db w' !! 25 = Some (set_note (repeat_char 200 "a") pikachu_record)
  /\ substring 0 200 (js_trim note) = substring 0 200 note.
Proof.
  pose proof (updatePokemonNote_truncates (sample_env (Fulfilled "AA") None None)
                world_with_pikachu 25 (repeat_char 250 "a")) as H.
  simpl in H |- *.
  destruct (updatePokemonNote 25 (repeat_char 250 "a")
              (sample_env (Fulfilled "AA") None None) world_with_pikachu)
    as [r w'] eqn:E.
  destruct H as (_ & _ & _ & _ & _ & Hdb & Hin). split.
  - rewrite (Hdb eq_refl). vm_compute. reflexivity.
  - apply Hin; vm_compute; reflexivity.
Defined.

(** C7 as stated fails: a 250-character input whose first character is a
    space is trimmed first, so the text written is not its first 200
    characters. *)
Lemma updatePokemonNote_leading_space_counterexample :
  let note := String " " (repeat_char 249 "a") in
  String.length note = 250%nat
  /\ trace (snd (updatePokemonNote 25 note (sample_env (Fulfilled "AA") None None)
                   world_with_pikachu))
     = [IoDbUpdate 25 (repeat_char 200 "a")]
  /\ repeat_char 200 "a" <> substring 0 200 note.
Proof.
  simpl. split; [reflexivity |]. split.
  - vm_compute. reflexivity.
  - vm_compute. discriminate.
Qed.

(* ------------------------------------------------------------------ *)
(** *** Image embedding *)

(** A failed download (offline, CORS) is caught: the original URL is
    returned and the error logged. *)
Lemma convertImageUrlToBase64_network_failure :
  convertImageUrlToBase64 "https://img.example/25.png" offline_env empty_world
  = (Fulfilled "https://img.example/25.png",
     mkWorld ∅ true ∅ [ErrorImageConversion CorsError]
       [IoFetch "https://img.example/25.png"]).
Proof. vm_compute. reflexivity. Qed.

(** C8: when the download and the blob succeed but the [FileReader] fails
    to decode, the rejection of the returned (not awaited) promise is not
    seen by the [catch]: [convertImageUrlToBase64] rejects, logs nothing and
    does not return the URL. *)
Theorem convertImageUrlToBase64_decode_failure_escapes :
  convertImageUrlToBase64 "https://img.example/25.png"
    (sample_env (Rejected DecodeError) None None) empty_world
  = (Rejected DecodeError,
     mkWorld ∅ true ∅ []
       [IoFetch "https://img.example/25.png"; IoBlob; IoReadAsDataURL]).
Proof. vm_compute. reflexivity. Qed.

(** The same failure seen from [catchPokemon]: the capture fails and is
    rolled back instead of degrading to the online image. *)
Lemma catchPokemon_decode_failure_rolls_back :
  let w' := snd (catchPokemon pikachu_input
                   (sample_env (Rejected DecodeError) None None) empty_world) in
  caughtIds w' = ∅ /\ db w' = ∅
  /\ logs w' = [ErrorCatchWriteFailed DecodeError].
Proof. vm_compute. repeat split. Qed.

(* ------------------------------------------------------------------ *)
(** *** The paged list *)

Example url_id_example : url_id "https://pokeapi.co/api/v2/pokemon/25/" = "25".
Proof. reflexivity. Qed.

Lemma omap_value_filter_fulfilled {A} (l : list (outcome A)) :
  omap outcome_value (List.filter (fun r => negb (is_rejected r)) l)
  = omap outcome_value l.
Proof.
  induction l as [| [a | e] l IH]; simpl in *.
  - reflexivity.
  - f_equal. exact IH.
  - exact IH.
Qed.

Lemma omap_value_length {A} (l : list (outcome A)) :
  List.length (omap outcome_value l)
  = (List.length l - List.length (List.filter is_rejected l))%nat.
Proof.
  induction l as [| [a | e] l IH]; simpl; [reflexivity | |].
  - change (S (List.length (omap outcome_value l))
            = (S (List.length l) - List.length (List.filter is_rejected l))%nat).
    rewrite IH. pose proof (List.filter_length_le is_rejected l). lia.
  - exact IH.
Qed.

(** One run of [hydrate]: it settles every lookup and only logs. *)
Lemma hydrate_run (urls : list string) (env : Env) (w : World) :
  hydrate urls env w =
    (Fulfilled (map (fetch_details env) urls),
     mkWorld (caughtIds w) (isInitialized w) (db w)
       (logs w ++ map (fun u => request_log (detail_path u)) urls
               ++ List.concat (map (fun u => error_log (detail_path u)
                                                        (fetch_details env u)) urls))
       (trace w)).
Proof. unfold hydrate. unfold_m. rewrite app_assoc. reflexivity. Qed.

Lemma filter_request_logs (f : log_entry -> bool) (urls : list string) :
  (forall p, f (request_log p) = false) ->
  List.filter f (map (fun u => request_log (detail_path u)) urls) = [].
Proof. intros Hf. induction urls as [| u urls IH]; simpl; [reflexivity |]. rewrite Hf. exact IH. Qed.

Lemma filter_error_logs (f : log_entry -> bool) (env : Env) (urls : list string) :
  (forall p e, f (ErrorApiError p e) = false) ->
  List.filter f (List.concat (map (fun u => error_log (detail_path u)
                                                     (fetch_details env u)) urls)) = [].
Proof.
  intros Hf. induction urls as [| u urls IH]; simpl; [reflexivity |].
  rewrite List.filter_app, IH. destruct (fetch_details env u); simpl; [reflexivity |].
  rewrite Hf. reflexivity.
Qed.

(** One run of [getPokemonList] once the list request succeeded. *)
Lemma getPokemonList_run (env : Env) (w : World) (limit offset : Z) (data : list ListItem) :
  env_api_list env limit offset = Fulfilled data ->
  let results := map (fun it => fetch_details env (li_url it)) data in
  let K := List.length (List.filter is_rejected results) in
  getPokemonList limit offset env w =
    (Fulfilled (omap outcome_value results),
     mkWorld (caughtIds w) (isInitialized w) (db w)
       (logs w ++ [request_log (PathList limit offset)]
               ++ map (fun u => request_log (detail_path u)) (map li_url data)
               ++ List.concat (map (fun u => error_log (detail_path u)
                                                        (fetch_details env u))
                                   (map li_url data))
               ++ (if decide (0 < K)%nat then [WarnRecoveredFailures K] else []))
       (trace w)).
Proof.
  intros Hlist. simpl. unfold getPokemonList, api_get. unfold_m. rewrite Hlist. simpl.
  rewrite map_map, omap_value_filter_fulfilled, omap_value_length.
  set (l := map _ data).
  assert (Hk : (List.length l - (List.length l - List.length (List.filter is_rejected l)))%nat
               = List.length (List.filter is_rejected l)).
  { pose proof (List.filter_length_le is_rejected l). lia. }
  rewrite Hk. destruct (decide _); simpl; rewrite ?app_nil_r, <- ?app_assoc; reflexivity.
Qed.

(** C4 (as amended): once the list page of [N] references is fetched, every
    detail lookup is settled and [getPokemonList] fulfils (no page-level
    error) with the values of the [N - K] fulfilled lookups, in page
    order, where [K] is the number of rejected lookups; the store, the
    table and the I/O trace are untouched, and among the lines it logs
    there is one warning carrying [K] when [K > 0] and none when [K = 0]
    (the other lines are the HTTP client's request and error lines). *)
Theorem getPokemonList_partial_failures (env : Env) (w : World) (limit offset : Z)
    (data : list ListItem) :
  env_api_list env limit offset = Fulfilled data ->
  let results := map (fun it => fetch_details env (li_url it)) data in
  let K := List.length (List.filter is_rejected results) in
  let '(r, w') := getPokemonList limit offset env w in
  r = Fulfilled (omap outcome_value results)
  /\ List.length (omap outcome_value results) = (List.length data - K)%nat
  /\ caughtIds w' = caughtIds w /\ db w' = db w /\ trace w' = trace w
  /\ exists new, logs w' = logs w ++ new
       /\ List.filter is_recovered_warning new
          = if decide (0 < K)%nat then [WarnRecoveredFailures K] else [].
Proof.
  intros Hlist. simpl. rewrite (getPokemonList_run env w limit offset data Hlist). simpl.
  split; [reflexivity |].
  split; [rewrite omap_value_length, length_map; reflexivity |].
  split; [reflexivity | split; [reflexivity | split; [reflexivity |]]].
  eexists. split; [reflexivity |]. simpl.
  rewrite !List.filter_app, filter_request_logs, filter_error_logs by reflexivity.
  simpl. destruct (decide _); reflexivity.
Qed.

Lemma getPokemonList_partial_failures_witness :
  let results := map (fun it => fetch_details (api_env [item_25; item_26] get_only_25)
                                  (li_url it)) [item_25; item_26] in
  let K := List.length (List.filter is_rejected results) in
  let '(r, w') := getPokemonList 20 0 (api_env [item_25; item_26] get_only_25) empty_world in
  r = Fulfilled (omap outcome_value results)
  /\ List.length (omap outcome_value results) = (List.length [item_25; item_26] - K)%nat
  /\ caughtIds w' = caughtIds empty_world /\ db w' = db empty_world
  /\ trace w' = trace empty_world
  /\ exists new, logs w' = logs empty_world ++ new
       /\ List.filter is_recovered_warning new
          = if decide (0 < K)%nat then [WarnRecoveredFailures K] else [].
Proof.
  exact (getPokemonList_partial_failures (api_env [item_25; item_26] get_only_25)
           empty_world 20 0 [item_25; item_26] eq_refl).
Defined.

(** C4 as stated fails at [K = 0]: a page whose lookups all succeed logs no
    warning at all. *)
Lemma getPokemonList_no_warning_counterexample :
  let '(r, w') := getPokemonList 20 0 (api_env [item_25] get_only_25) empty_world in
  r = Fulfilled [adaptPokemon pikachu_payload]
  /\ List.filter is_recovered_warning (logs w') = [].
Proof. vm_compute. split; reflexivity. Qed.

(* ------------------------------------------------------------------ *)
(** *** The adapter's statistic block *)

Lemma find_base_stat_spec (stats : list StatEntry) (n : string) :
  find_base_stat stats n =
    match List.find (fun s => String.eqb (stat_name s) n) stats with
    | Some s => base_stat s
    | None => 0
    end.
Proof.
  unfold find_base_stat.
  destruct (List.find _ stats) as [s |]; [| reflexivity].
  destruct (Z.eqb_spec (base_stat s) 0); auto.
Qed.

(** The [base_stat] of the first entry named [n], or 0 when none is. *)
Definition stat_or_zero (stats : list StatEntry) (n : string) : Z :=
  match List.find (fun s => String.eqb (stat_name s) n) stats with
  | Some s => base_stat s
  | None => 0
  end.

(** C10: every field of the adapted statistic block is the [base_stat] of
    the payload's (first) stats entry with the matching name, and 0 when no
    entry has that name. *)
Theorem adaptPokemon_stats (data : PokeAPIResponse) :
  let st := p_stats (adaptPokemon data) in
  hp st = stat_or_zero (r_stats data) "hp"
  /\ attack st = stat_or_zero (r_stats data) "attack"
  /\ defense st = stat_or_zero (r_stats data) "defense"
  /\ specialAttack st = stat_or_zero (r_stats data) "special-attack"
  /\ specialDefense st = stat_or_zero (r_stats data) "special-defense"
  /\ speed st = stat_or_zero (r_stats data) "speed".
Proof.
  simpl. unfold stat_or_zero. rewrite !find_base_stat_spec. tauto.
Qed.

Lemma stat_or_zero_missing (stats : list StatEntry) (n : string) :
  (forall s, In s stats -> stat_name s <> n) -> stat_or_zero stats n = 0.
Proof.
  intros H. unfold stat_or_zero.
  destruct (List.find _ stats) as [s |] eqn:E; [| reflexivity].
  apply List.find_some in E as [Hin Heq].
  apply String.eqb_eq in Heq. exfalso. exact (H s Hin Heq).
Qed.

(* ------------------------------------------------------------------ *)
(** *** Search *)

(** Case-insensitive prefix test, character by character. *)
Fixpoint ci_prefix (q s : string) : bool :=
  match q, s with
  | EmptyString, _ => true
  | String c q', String d s' =>
      Ascii.eqb (ascii_toLower c) (ascii_toLower d) && ci_prefix q' s'
  | String _ _, EmptyString => false
  end.

Lemma toLowerCase_cons (c : ascii) (s : string) :
  toLowerCase (String c s) = String (ascii_toLower c) (toLowerCase s).
Proof. reflexivity. Qed.

Lemma startsWith_lower_ci (s q : string) :
  startsWith (toLowerCase s) (toLowerCase q) = ci_prefix q s.
Proof.
  unfold startsWith. revert s.
  induction q as [| c q IH]; intros [| d s]; try reflexivity.
  rewrite !toLowerCase_cons. simpl.
  destruct (ascii_dec (ascii_toLower c) (ascii_toLower d)) as [E | E].
  - rewrite E, Ascii.eqb_refl. simpl. apply IH.
  - apply Ascii.eqb_neq in E. rewrite E. reflexivity.
Qed.

Lemma promise_all_fulfilled {A} (l : list (outcome A)) :
  Forall (fun o => is_rejected o = false) l ->
  promise_all l = Fulfilled (omap outcome_value l).
Proof.
  induction 1 as [| [a | e] l Ha _ IH]; simpl in *; try discriminate;
    [reflexivity |].
  rewrite IH. reflexivity.
Qed.

(** C6: the filter keeps exactly the index entries whose name starts with
    the query up to letter case, in the index's order; the query function
    hydrates exactly the first [20 * page] filtered entries (in that order,
    all of them when every lookup succeeds); "pi" over
    [pikachu; pidgey; bulbasaur] gives [pikachu; pidgey]. *)
Theorem search_prefix_filter_in_index_order (q : string) (page : nat)
    (allNames : list ListItem) (env : Env) (w : World) :
  searchFilter q allNames = List.filter (fun e => ci_prefix q (li_name e)) allNames
  /\ fst (searchQueryFn q page (Some allNames) env w) =
       promise_all (map (fun e => fetch_details env (li_url e))
                        (firstn (20 * page) (searchFilter q allNames)))
  /\ map li_name (searchFilter "pi" sample_index) = ["pikachu"; "pidgey"].
Proof.
  split; [| split].
  - unfold searchFilter. apply List.filter_ext. intros e.
    apply startsWith_lower_ci.
  - unfold searchQueryFn, itemsToShow. unfold_m. rewrite map_map.
    reflexivity.
  - reflexivity.
Qed.

(* ------------------------------------------------------------------ *)
(** *** Detail view *)

Lemma isSharedView_spec (m : option string) :
  isSharedView m = true <-> exists s, m = Some s /\ s <> ""%string.
Proof.
  destruct m as [s |]; simpl; split.
  - intros H. exists s. split; [reflexivity |].
    apply negb_true_iff, String.eqb_neq in H. exact H.
  - intros (s' & [= <-] & Hs). apply negb_true_iff, String.eqb_neq. exact Hs.
  - discriminate.
  - intros (s' & H & _). discriminate.
Qed.

(** C3: in a shared view the API value is shown whether or not a local
    record exists; otherwise a local record wins over the API value; with
    neither a marker nor a local record the API value is shown. *)
Theorem details_merge_precedence (d : DetailsInputs) :
  (isSharedView (sharedDateStr d) = true ->
     details_pokemon d = option_map ApiValue (apiPokemon d))
  /\ (isSharedView (sharedDateStr d) = false -> forall l,
        localPokemon d = Some l -> details_pokemon d = Some (LocalValue l))
  /\ (isSharedView (sharedDateStr d) = false -> localPokemon d = None ->
        details_pokemon d = option_map ApiValue (apiPokemon d)).
Proof.
  unfold details_pokemon, mergePokemon.
  split; [| split]; intros Hs; rewrite Hs; [reflexivity | |].
  - intros l Hl. rewrite Hl. reflexivity.
  - intros Hl. rewrite Hl. reflexivity.
Qed.

Lemma details_merge_precedence_witness :
  details_pokemon shared_inputs = Some (ApiValue (adaptPokemon pikachu_payload))
  /\ details_pokemon (mkDetailsInputs None (Some pikachu_record) false
                        (Some (adaptPokemon pikachu_payload)) false false)
     = Some (LocalValue pikachu_record).
Proof.
  split.
  - apply (proj1 (details_merge_precedence shared_inputs)). reflexivity.
  - apply (proj1 (proj2 (details_merge_precedence
             (mkDetailsInputs None (Some pikachu_record) false
                (Some (adaptPokemon pikachu_payload)) false false))));
      reflexivity.
Defined.

(** C9 (as amended): the loading flag is "API loading, or local lookup
    pending outside a shared view", and only while no merged value exists. *)
Theorem isEffectiveLoading_spec (d : DetailsInputs) :
  isEffectiveLoading d = true <->
  (isApiLoading d = true
   \/ (isLocalLoading d = true /\ isSharedView (sharedDateStr d) = false))
  /\ details_pokemon d = None.
Proof.
  unfold isEffectiveLoading.
  destruct (isApiLoading d), (isLocalLoading d), (isSharedView (sharedDateStr d)),
    (details_pokemon d) as [v |]; simpl; intuition congruence.
Qed.

(** C9 as stated fails: in a shared view whose API request has failed while
    the local lookup is still pending, nothing is resolved and a lookup is
    outstanding, yet the flag is false. *)
Lemma isEffectiveLoading_shared_counterexample :
  let d := mkDetailsInputs (Some "2024-05-01T10:00:00.000Z") None true None
             false true in
  isLocalLoading d = true /\ details_pokemon d = None
  /\ isEffectiveLoading d = false.
Proof. vm_compute. repeat split. Qed.

(* ================================================================== *)
(** * Further properties of the store, the feeds and the views *)

(* ------------------------------------------------------------------ *)
(** *** Initialisation and the store/table invariant *)

Lemma ids_of_table (t : gmap Z CaughtPokemon) :
  keys_inline t ->
  list_to_set (map c_id (map snd (map_to_list t))) = (dom t : gset Z).
Proof.
  intros Hk. apply set_eq. intros x.
  rewrite elem_of_list_to_set, list_elem_of_In, elem_of_dom. split.
  - intros (r & <- & Hr)%in_map_iff.
    apply in_map_iff in Hr as ([k r'] & Hsnd & Hkv). simpl in Hsnd. subst r'.
    apply list_elem_of_In, elem_of_map_to_list in Hkv.
    rewrite (Hk k r Hkv). exists r. exact Hkv.
  - intros [r Hr]. apply in_map_iff. exists r. split; [exact (Hk x r Hr) |].
    apply in_map_iff. exists (x, r). split; [reflexivity |].
    apply list_elem_of_In, elem_of_map_to_list. exact Hr.
Qed.

(** [initialize], on a store not yet initialised whose table read succeeds,
    sets [caughtIds] to exactly the ids stored in the table and marks the
    store initialised; the table is not modified. *)
Theorem initialize_mirrors_table (env : Env) (w : World) :
  isInitialized w = false -> keys_inline (db w) ->
  let w' := snd (initialize None env w) in
  isInitialized w' = true /\ caughtIds w' = dom (db w) /\ db w' = db w
  /\ store_consistent w'.
Proof.
  intros Hi Hk. unfold initialize, db_toArray, set_initialized, get_world.
  unfold_m. rewrite Hi. simpl. rewrite (ids_of_table _ Hk).
  split; [reflexivity | split; [reflexivity | split; [reflexivity |]]].
  split; [exact Hk | reflexivity].
Qed.

Lemma initialize_mirrors_table_witness :
  caughtIds (snd (initialize None offline_env
                    (mkWorld ∅ false {[25 := pikachu_record]} [] []))) = {[25]}.
Proof.
  destruct (initialize_mirrors_table offline_env
              (mkWorld ∅ false {[25 := pikachu_record]} [] []) eq_refl
              ltac:(apply map_Forall_singleton; reflexivity))
    as (_ & H & _). rewrite H. apply dom_singleton_L.
Defined.

Lemma keys_inline_insert (t : gmap Z CaughtPokemon) (r : CaughtPokemon) :
  keys_inline t -> keys_inline (<[c_id r := r]> t).
Proof. intros Hk. apply map_Forall_insert_2; [reflexivity | exact Hk]. Qed.

Lemma keys_inline_alter (f : CaughtPokemon -> CaughtPokemon) (i : Z)
    (t : gmap Z CaughtPokemon) :
  (forall r, c_id (f r) = c_id r) -> keys_inline t -> keys_inline (alter f i t).
Proof.
  intros Hf Hk k r Hr. rewrite lookup_alter in Hr. case_decide as Hik.
  - subst k. apply fmap_Some in Hr as (r0 & E & ->).
    rewrite Hf. exact (Hk i r0 E).
  - exact (Hk k r Hr).
Qed.

Lemma bulk_delete_consistent (t : gmap Z CaughtPokemon) (ids : list Z) :
  keys_inline t ->
  keys_inline (foldl (fun m k => delete k m) t ids)
  /\ foldl (fun s id => s ∖ {[id]}) (dom t) ids
     = (dom (foldl (fun m k => delete k m) t ids) : gset Z).
Proof.
  revert t. induction ids as [| k ids IH]; intros t Hk; simpl; [auto |].
  rewrite <- dom_delete_L. apply IH. apply map_Forall_delete. exact Hk.
Qed.

(** [catchPokemon] keeps the store mirroring the table, whatever the image
    download, the decoding and the insert do. *)
Theorem catchPokemon_preserves_consistency (env : Env) (w : World) (pokemon : CatchInput) :
  store_consistent w -> store_consistent (snd (catchPokemon pokemon env w)).
Proof.
  intros [Hk Hd]. run_store; try (split; assumption);
    (split; simpl;
     [apply (keys_inline_insert _ (caught_record pokemon _ _)); exact Hk
     | rewrite dom_insert_L, Hd; set_solver]).
Qed.

Lemma catchPokemon_preserves_consistency_witness :
  store_consistent (snd (catchPokemon pikachu_input
                           (sample_env (Fulfilled "AA") None None) empty_world)).
Proof.
  apply catchPokemon_preserves_consistency. split.
  - apply map_Forall_empty.
  - simpl. rewrite dom_empty_L. reflexivity.
Defined.

(** [releasePokemon] keeps the store mirroring the table, whether the bulk
    delete succeeds or is rolled back. *)
Theorem releasePokemon_preserves_consistency (env : Env) (w : World) (ids : list Z) :
  store_consistent w -> store_consistent (snd (releasePokemon ids env w)).
Proof.
  intros [Hk Hd]. destruct ids as [| id ids]; [split; assumption |].
  unfold releasePokemon, db_bulkDelete. unfold_m.
  destruct (env_bulkDelete_fault env (id :: ids)); simpl; [split; assumption |].
  rewrite Hd. destruct (bulk_delete_consistent (delete id (db w)) ids) as [H1 H2].
  { apply map_Forall_delete. exact Hk. }
  split; [exact H1 |]. simpl. rewrite <- H2, dom_delete_L. reflexivity.
Qed.

Lemma releasePokemon_preserves_consistency_witness :
  store_consistent (snd (releasePokemon [25] (sample_env (Fulfilled "AA") None None)
                           world_with_pikachu)).
Proof.
  apply releasePokemon_preserves_consistency. split.
  - apply map_Forall_singleton. reflexivity.
  - simpl. rewrite dom_singleton_L. reflexivity.
Defined.

(** [updatePokemonNote] keeps the store mirroring the table: it changes only
    the note of an existing record. *)
Theorem updatePokemonNote_preserves_consistency (env : Env) (w : World) (id : Z)
    (note : string) :
  store_consistent w -> store_consistent (snd (updatePokemonNote id note env w)).
Proof.
  intros [Hk Hd]. unfold updatePokemonNote, db_update_note. unfold_m.
  destruct (decide _); simpl;
    destruct (env_update_fault env id _); simpl; try (split; assumption).
  all: split; simpl; [| rewrite dom_alter_L; exact Hd].
  all: apply keys_inline_alter; [reflexivity | exact Hk].
Qed.

Lemma updatePokemonNote_preserves_consistency_witness :
  store_consistent (snd (updatePokemonNote 25 "fast" (sample_env (Fulfilled "AA") None None)
                           world_with_pikachu)).
Proof.
  apply updatePokemonNote_preserves_consistency. split.
  - apply map_Forall_singleton. reflexivity.
  - simpl. rewrite dom_singleton_L. reflexivity.
Defined.


Lemma foldl_difference (S : gset Z) (ids : list Z) :
  foldl (fun s id => s ∖ {[id]}) S ids = S ∖ list_to_set ids.
Proof.
  revert S. induction ids as [| i ids IH]; intros S; simpl.
  - set_solver.
  - rewrite IH. set_solver.
Qed.

Lemma lookup_foldl_delete (t : gmap Z CaughtPokemon) (ids : list Z) (k : Z) :
  foldl (fun m k => delete k m) t ids !! k = if decide (k ∈ ids) then None else t !! k.
Proof.
  revert t. induction ids as [| i ids IH]; intros t; simpl.
  - reflexivity.
  - rewrite IH. rewrite lookup_delete.
    destruct (decide (k ∈ ids)), (decide (k ∈ i :: ids)), (decide (i = k));
      set_solver.
Qed.

(** [releasePokemon] on a non-empty list: on success the ids leave both the
    store and the table and nothing else changes; on failure the store is
    restored, the table is untouched and the error is logged. *)
Theorem releasePokemon_outcome (env : Env) (w : World) (id : Z) (ids : list Z) :
  let w' := snd (releasePokemon (id :: ids) env w) in
  match env_bulkDelete_fault env (id :: ids) with
  | None =>
      caughtIds w' = caughtIds w ∖ list_to_set (id :: ids)
      /\ (forall k, db w' !! k = if decide (k ∈ id :: ids) then None else db w !! k)
      /\ logs w' = logs w
  | Some e =>
      caughtIds w' = caughtIds w /\ db w' = db w
      /\ logs w' = logs w ++ [ErrorReleaseFailed e]
  end.
Proof.
  unfold releasePokemon, db_bulkDelete. unfold_m.
  destruct (env_bulkDelete_fault env (id :: ids)); simpl.
  - repeat split.
  - split; [| split; [| reflexivity]].
    + rewrite (foldl_difference (caughtIds w ∖ {[id]}) ids). set_solver.
    + intros k. rewrite (lookup_foldl_delete (delete id (db w)) ids k), lookup_delete.
      destruct (decide (k ∈ ids)), (decide (k ∈ id :: ids)), (decide (id = k));
        set_solver.
Qed.

(** A capture whose image download fails still succeeds: the record is
    stored with the remote image URL, the id joins the store and the
    conversion error is logged. *)
Theorem catchPokemon_image_fallback (env : Env) (w : World) (pokemon : CatchInput)
    (e : js_error) :
  i_id pokemon ∉ caughtIds w ->
  db w !! i_id pokemon = None ->
  env_fetch env (i_imageUrl pokemon) = Rejected e ->
  env_add_fault env (caught_record pokemon (i_imageUrl pokemon) (env_now env)) = None ->
  let w' := snd (catchPokemon pokemon env w) in
  caughtIds w' = caughtIds w ∪ {[i_id pokemon]}
  /\ db w' = <[i_id pokemon := caught_record pokemon (i_imageUrl pokemon) (env_now env)]> (db w)
  /\ logs w' = logs w ++ [ErrorImageConversion e].
Proof.
  intros Hn Hdb Hf Ha.
  unfold catchPokemon, convertImageUrlToBase64, db_add. unfold_m.
  rewrite decide_False by exact Hn. simpl. rewrite Hf. simpl.
  unfold caught_record in *. simpl. rewrite Hdb, Ha. simpl.
  split; [reflexivity | split; reflexivity].
Qed.

Lemma catchPokemon_image_fallback_witness :
  let w' := snd (catchPokemon pikachu_input offline_env empty_world) in
  caughtIds w' = ∅ ∪ {[25]}
  /\ db w' = <[25 := caught_record pikachu_input "https://img.example/25.png"
                        1700000000000]> ∅
  /\ logs w' = [] ++ [ErrorImageConversion CorsError].
Proof.
  exact (catchPokemon_image_fallback offline_env empty_world pikachu_input CorsError
           (not_elem_of_empty 25) eq_refl eq_refl eq_refl).
Defined.

(** [updatePokemonNote] for an id with no record (Dexie resolves with no
    row updated): the table and the store are left as they were. *)
Theorem updatePokemonNote_missing_record (env : Env) (w : World) (id : Z)
    (note : string) :
  db w !! id = None ->
  let w' := snd (updatePokemonNote id note env w) in
  db w' = db w /\ caughtIds w' = caughtIds w.
Proof.
  intros Hn. unfold updatePokemonNote, db_update_note. unfold_m.
  destruct (decide _); simpl; destruct (env_update_fault env id _); simpl;
    try (split; reflexivity);
    (split; [apply alter_id'; exact Hn | reflexivity]).
Qed.

Lemma updatePokemonNote_missing_record_witness :
  let w' := snd (updatePokemonNote 26 "  strong  " (sample_env (Fulfilled "AA") None None)
                   world_with_pikachu) in
  db w' = db world_with_pikachu /\ caughtIds w' = caughtIds world_with_pikachu.
Proof. apply updatePokemonNote_missing_record. reflexivity. Defined.

(** When the catalog returns a page whose every detail lookup fails,
    [getPokemonList] fulfils with an empty page and [getNextPageParam] then
    ends the infinite scroll, whatever remains in the catalog. *)
Theorem getPokemonList_all_failed_ends_feed (env : Env) (w : World) (limit offset : Z)
    (data : list ListItem) (allPages : list (list Pokemon)) :
  env_api_list env limit offset = Fulfilled data ->
  Forall (fun it => is_rejected (fetch_details env (li_url it)) = true) data ->
  match fst (getPokemonList limit offset env w) with
  | Fulfilled page => page = [] /\ getNextPageParam page allPages = None
  | Rejected _ => False
  end.
Proof.
  intros Hl Hall. rewrite (getPokemonList_run env w limit offset data Hl). simpl.
  assert (Hf : omap outcome_value (map (fun it => fetch_details env (li_url it)) data) = []).
  { clear Hl. induction Hall as [| it data Hit Hall IH]; simpl; [reflexivity |].
    destruct (fetch_details env (li_url it)); [discriminate | exact IH]. }
  rewrite Hf. split; reflexivity.
Qed.

Lemma getPokemonList_all_failed_ends_feed_witness :
  match fst (getPokemonList 20 0 (api_env [item_26] get_only_25) empty_world) with
  | Fulfilled page => page = [] /\ getNextPageParam page [] = None
  | Rejected _ => False
  end.
Proof.
  apply (getPokemonList_all_failed_ends_feed _ _ _ _ [item_26]); [reflexivity |].
  repeat constructor.
Defined.

Lemma promise_all_length {A} (ps : list (outcome A)) (l : list A) :
  promise_all ps = Fulfilled l -> List.length l = List.length ps.
Proof.
  revert l. induction ps as [| [a | e] ps IH]; intros l H; simpl in H.
  - injection H as <-. reflexivity.
  - destruct (promise_all ps) as [l' |]; [| discriminate].
    injection H as <-. simpl. f_equal. apply IH. reflexivity.
  - discriminate.
Qed.

Lemma promise_all_rejects {A} (ps : list (outcome A)) (e : js_error) :
  In (Rejected e) ps -> is_rejected (promise_all ps) = true.
Proof.
  induction ps as [| [a | e'] ps IH]; simpl; intros Hin; [contradiction | |].
  - destruct Hin as [Hin | Hin]; [discriminate |].
    specialize (IH Hin). destruct (promise_all ps); [discriminate | reflexivity].
  - reflexivity.
Qed.

(** After a successful hydration, the search reports more results exactly
    when the matching names outnumber the [20 * page] already requested. *)
Theorem searchQueryFn_hasMoreResults (env : Env) (w : World) (q : string) (page : nat)
    (names : list ListItem) (r : list Pokemon) :
  fst (searchQueryFn q page (Some names) env w) = Fulfilled r ->
  hasMoreResults q (Some names) (Some r)
  = (20 * page <? List.length (searchFilter q names))%nat.
Proof.
  unfold searchQueryFn. unfold_m. intros H.
  apply promise_all_length in H. rewrite !length_map in H.
  unfold hasMoreResults, totalResults, itemsToShow in *. rewrite H, length_firstn.
  apply Bool.eq_iff_eq_true. rewrite !Nat.ltb_lt. lia.
Qed.

Lemma searchQueryFn_hasMoreResults_witness :
  exists r,
    fst (searchQueryFn "pi" 1 (Some sample_index)
           (api_env sample_index (fun _ => Fulfilled pikachu_payload)) empty_world)
      = Fulfilled r
    /\ hasMoreResults "pi" (Some sample_index) (Some r) = (20 * 1 <? 2)%nat.
Proof.
  eexists. split; [vm_compute; reflexivity |].
  apply (searchQueryFn_hasMoreResults
           (api_env sample_index (fun _ => Fulfilled pikachu_payload)) empty_world).
  vm_compute. reflexivity.
Defined.

(** One failed detail lookup among the names shown rejects the whole search
    page ([Promise.all]): no partial result is shown. *)
Theorem searchQueryFn_one_failure_rejects (env : Env) (w : World) (q : string)
    (page : nat) (names : list ListItem) (it : ListItem) :
  In it (itemsToShow (searchFilter q names) page) ->
  is_rejected (fetch_details env (li_url it)) = true ->
  is_rejected (fst (searchQueryFn q page (Some names) env w)) = true.
Proof.
  intros Hin Hr. unfold searchQueryFn. unfold_m. rewrite map_map.
  destruct (fetch_details env (li_url it)) as [p | e] eqn:E; [discriminate |].
  apply (promise_all_rejects _ e). apply in_map_iff. exists it. split; assumption.
Qed.

Lemma searchQueryFn_one_failure_rejects_witness :
  is_rejected (fst (searchQueryFn "pi" 1 (Some sample_index)
                      (api_env sample_index get_only_25) empty_world)) = true.
Proof.
  apply (searchQueryFn_one_failure_rejects _ _ _ _ _ (name_entry "pidgey" "16")).
  - vm_compute. right. left. reflexivity.
  - vm_compute. reflexivity.
Defined.

Lemma split_on_not_nil (sep : ascii) (cur s : string) : split_on sep cur s <> [].
Proof.
  revert cur. induction s as [| c s IH]; intros cur; simpl; [discriminate |].
  destruct (Ascii.eqb c sep); [discriminate | apply IH].
Qed.

Lemma split_on_app (sep : ascii) (cur s t : string) :
  split_on sep cur (s ++ t)%string
  = removelast (split_on sep cur s) ++ split_on sep (List.last (split_on sep cur s) "") t.
Proof.
  revert cur. induction s as [| c s IH]; intros cur; simpl; [reflexivity |].
  destruct (Ascii.eqb c sep); [| apply IH].
  rewrite IH. pose proof (split_on_not_nil sep "" s) as Hne.
  destruct (split_on sep "" s) as [| x l] eqn:E; [contradiction |].
  reflexivity.
Qed.

Lemma string_app_cons (c : ascii) (s t : string) :
  (String c s ++ t)%string = String c (s ++ t)%string.
Proof. reflexivity. Qed.

Lemma string_app_assoc (a b c : string) : ((a ++ b) ++ c)%string = (a ++ (b ++ c))%string.
Proof.
  induction a as [| x a IH]; [reflexivity |].
  rewrite !string_app_cons, IH. reflexivity.
Qed.

Lemma string_app_empty (a : string) : (a ++ "")%string = a.
Proof.
  induction a as [| x a IH]; [reflexivity |]. rewrite string_app_cons, IH. reflexivity.
Qed.

Lemma split_on_segment (sep : ascii) (cur s : string) :
  (forall c, In c (list_ascii_of_string s) -> c <> sep) ->
  split_on sep cur (s ++ String sep "")%string = [(cur ++ s)%string; ""%string].
Proof.
  revert cur. induction s as [| c s IH]; intros cur Hs.
  - simpl. rewrite Ascii.eqb_refl, string_app_empty. reflexivity.
  - assert (Hc : c <> sep) by (apply Hs; left; reflexivity).
    apply Ascii.eqb_neq in Hc. rewrite string_app_cons. simpl. rewrite Hc.
    rewrite IH by (intros c' Hc'; apply Hs; right; exact Hc').
    rewrite string_app_assoc. reflexivity.
Qed.

Lemma last_app_not_nil {A} (l1 l2 : list A) (d : A) :
  l2 <> [] -> List.last (l1 ++ l2) d = List.last l2 d.
Proof.
  intros Hne. induction l1 as [| x l1 IH]; [reflexivity |].
  rewrite <- app_comm_cons. simpl. rewrite IH.
  destruct l1, l2; simpl; [contradiction | reflexivity | contradiction | reflexivity].
Qed.

(** The id of a PokeAPI resource URL: for a URL ending in [/<id>/], where the
    segment [<id>] is not empty and has no slash, [url_id] gives [<id>]
    whatever comes before. *)
Theorem url_id_last_segment (prefix id : string) :
  id <> ""%string ->
  (forall c, In c (list_ascii_of_string id) -> c <> "/"%char) ->
  url_id (prefix ++ "/" ++ id ++ "/")%string = id.
Proof.
  intros Hne Hs. unfold url_id. rewrite split_on_app, string_app_cons.
  change (("" ++ id ++ "/")%string) with ((id ++ "/")%string). simpl.
  rewrite split_on_segment by exact Hs.
  change (("" ++ id)%string) with id.
  rewrite List.filter_app. simpl.
  apply String.eqb_neq in Hne. rewrite Hne. simpl.
  rewrite last_app_not_nil by (destruct (negb _); discriminate).
  destruct (negb _); reflexivity.
Qed.

Lemma url_id_last_segment_witness :
  url_id (li_url (name_entry "pikachu" "25")) = "25"%string.
Proof.
  exact (url_id_last_segment "https://pokeapi.co/api/v2/pokemon" "25"
           ltac:(discriminate)
           ltac:(simpl; intros c [<- | [<- | []]]; discriminate)).
Defined.

(** A click from a stale render (the id caught since) reaches the store,
    which refuses the duplicate: only a warning is logged. *)
Theorem handleClick_stale_snapshot (renderedIds : gset Z) (pokemon : Pokemon)
    (env : Env) (w : World) :
  p_id pokemon ∉ renderedIds -> p_id pokemon ∈ caughtIds w ->
  handleClick renderedIds pokemon false env w
  = (Fulfilled tt, mkWorld (caughtIds w) (isInitialized w) (db w)
                     (logs w ++ [WarnDuplicateCapture (p_name pokemon) (p_id pokemon)])
                     (trace w)).
Proof.
  intros Hr Hc. unfold handleClick.
  rewrite bool_decide_eq_false_2 by exact Hr. simpl.
  unfold catchPokemon. unfold_m. rewrite decide_True by exact Hc. reflexivity.
Qed.

Lemma handleClick_stale_snapshot_witness :
  handleClick ∅ (adaptPokemon pikachu_payload) false
    (sample_env (Fulfilled "AA") None None) world_with_pikachu
  = (Fulfilled tt, mkWorld {[25]} true {[25 := pikachu_record]}
                     [WarnDuplicateCapture "pikachu" 25] []).
Proof.
  apply (handleClick_stale_snapshot ∅ (adaptPokemon pikachu_payload)
           (sample_env (Fulfilled "AA") None None) world_with_pikachu).
  - apply not_elem_of_empty.
  - simpl. apply elem_of_singleton. reflexivity.
Defined.

(** A shared link whose API request failed shows nothing, and neither the
    loading state nor the error state: the page is blank. *)
Theorem details_shared_api_failure_blank (d : DetailsInputs) :
  isSharedView (sharedDateStr d) = true -> apiPokemon d = None ->
  isApiLoading d = false ->
  details_pokemon d = None /\ isEffectiveLoading d = false /\ isEffectiveError d = false.
Proof.
  intros Hs Ha Hl. unfold isEffectiveLoading, isEffectiveError, details_pokemon.
  unfold mergePokemon. rewrite Hs, Ha, Hl. simpl.
  split; [reflexivity |].
  destruct (isLocalLoading d), (isApiError d), (bool_decide _); split; reflexivity.
Qed.

Lemma details_shared_api_failure_blank_witness :
  let d := mkDetailsInputs (Some "2024-05-01T10:00:00.000Z") None false None false true in
  details_pokemon d = None /\ isEffectiveLoading d = false /\ isEffectiveError d = false.
Proof. apply details_shared_api_failure_blank; reflexivity. Defined.

(** Outside a shared link, a local record hides an API failure: the record
    is shown, with neither the loading nor the error state. *)
Theorem details_local_masks_api_error (d : DetailsInputs) (l : CaughtPokemon) :
  isSharedView (sharedDateStr d) = false -> localPokemon d = Some l ->
  details_pokemon d = Some (LocalValue l)
  /\ isEffectiveLoading d = false /\ isEffectiveError d = false.
Proof.
  intros Hs Hl. unfold isEffectiveLoading, isEffectiveError, details_pokemon.
  unfold mergePokemon. rewrite Hs, Hl. simpl.
  split; [reflexivity |].
  destruct (isLocalLoading d), (isApiError d), (isApiLoading d); split; reflexivity.
Qed.

Lemma details_local_masks_api_error_witness :
  let d := mkDetailsInputs None (Some pikachu_record) false None false true in
  details_pokemon d = Some (LocalValue pikachu_record)
  /\ isEffectiveLoading d = false /\ isEffectiveError d = false.
Proof. apply details_local_masks_api_error; reflexivity. Defined.

Lemma insert_by_perm (cmp : CaughtPokemon -> CaughtPokemon -> Z) (x : CaughtPokemon)
    (l : list CaughtPokemon) :
  Permutation (insert_by cmp x l) (x :: l).
Proof.
  induction l as [| y l IH]; simpl; [reflexivity |].
  destruct (Z.ltb 0 (cmp x y)); [| reflexivity].
  rewrite IH. apply perm_swap.
Qed.

Lemma sort_by_perm (cmp : CaughtPokemon -> CaughtPokemon -> Z) (l : list CaughtPokemon) :
  Permutation (sort_by cmp l) l.
Proof.
  induction l as [| x l IH]; simpl; [reflexivity |].
  rewrite insert_by_perm, IH. reflexivity.
Qed.

Lemma filter_filter_andb {A} (f g : A -> bool) (l : list A) :
  List.filter g (List.filter f l) = List.filter (fun x => f x && g x) l.
Proof.
  induction l as [| x l IH]; simpl; [reflexivity |].
  destruct (f x); simpl; [destruct (g x); simpl; rewrite IH |]; reflexivity || exact IH.
Qed.

Lemma filter_true {A} (l : list A) : List.filter (fun _ => true) l = l.
Proof. induction l as [| x l IH]; simpl; [reflexivity | rewrite IH; reflexivity]. Qed.

(** The collection shows exactly the records that pass the name filter and
    the type filter, each once, in some order: sorting loses and duplicates
    nothing. *)
Theorem processedPokemons_permutation (localeCompare : string -> string -> Z)
    (myPokemons : list CaughtPokemon) (searchQuery : string)
    (selectedType : option string) (sortBy : SortOption) :
  Permutation (processedPokemons localeCompare myPokemons searchQuery selectedType sortBy)
    (List.filter
       (fun p => (String.eqb searchQuery ""
                  || includes (toLowerCase (c_name p)) (toLowerCase searchQuery))
                 && match selectedType with
                    | Some t => String.eqb t "" || existsb (String.eqb t) (c_types p)
                    | None => true
                    end)
       myPokemons).
Proof.
  unfold processedPokemons. rewrite sort_by_perm.
  destruct (String.eqb searchQuery "");
    destruct selectedType as [t |]; try destruct (String.eqb t "");
    simpl; rewrite ?filter_filter_andb;
    first [ rewrite filter_true; reflexivity
          | apply Permutation_refl'; apply List.filter_ext; intros p;
            rewrite ?andb_true_r; reflexivity ].
Qed.

Lemma insert_by_hd (cmp : CaughtPokemon -> CaughtPokemon -> Z) (x y : CaughtPokemon)
    (l : list CaughtPokemon) :
  cmp y x <= 0 -> HdRel (fun a b => cmp a b <= 0) y l ->
  HdRel (fun a b => cmp a b <= 0) y (insert_by cmp x l).
Proof.
  intros Hyx Hl. destruct l as [| z l]; simpl; [constructor; exact Hyx |].
  destruct (Z.ltb 0 (cmp x z)); constructor; [inversion Hl; assumption | exact Hyx].
Qed.

Lemma insert_by_sorted (cmp : CaughtPokemon -> CaughtPokemon -> Z) (x : CaughtPokemon)
    (l : list CaughtPokemon) :
  (forall a b, cmp a b = - cmp b a) ->
  Sorted (fun a b => cmp a b <= 0) l ->
  Sorted (fun a b => cmp a b <= 0) (insert_by cmp x l).
Proof.
  intros Hanti Hs. induction Hs as [| y l Hs IH Hhd]; simpl.
  - repeat constructor.
  - destruct (Z.ltb_spec 0 (cmp x y)).
    + constructor; [exact IH |]. apply insert_by_hd; [| exact Hhd].
      rewrite (Hanti y x). lia.
    + constructor; [constructor; assumption |]. constructor. exact H.
Qed.

Lemma sort_by_sorted (cmp : CaughtPokemon -> CaughtPokemon -> Z) (l : list CaughtPokemon) :
  (forall a b, cmp a b = - cmp b a) ->
  Sorted (fun a b => cmp a b <= 0) (sort_by cmp l).
Proof.
  intros Hanti. induction l as [| x l IH]; simpl; [constructor |].
  apply insert_by_sorted; assumption.
Qed.

(** The collection is sorted by the chosen option: each record compares
    before or equal to the next.  For the name options this needs
    [localeCompare] to be antisymmetric; the numeric options always are. *)
Theorem processedPokemons_sorted (localeCompare : string -> string -> Z)
    (myPokemons : list CaughtPokemon) (searchQuery : string)
    (selectedType : option string) (sortBy : SortOption) :
  (forall s1 s2, localeCompare s1 s2 = - localeCompare s2 s1) ->
  Sorted (fun a b => compare_by localeCompare sortBy a b <= 0)
    (processedPokemons localeCompare myPokemons searchQuery selectedType sortBy).
Proof.
  intros Hlc. apply sort_by_sorted. intros a b.
  destruct sortBy; simpl; try lia; apply Hlc.
Qed.

(** A code-point comparison in the role of [localeCompare]. *)
Definition codepoint_compare (s1 s2 : string) : Z :=
  match String.compare s1 s2 with Lt => -1 | Eq => 0 | Gt => 1 end.

Lemma processedPokemons_sorted_witness :
  (forall s1 s2, codepoint_compare s1 s2 = - codepoint_compare s2 s1)
  /\ Sorted (fun a b => compare_by codepoint_compare NameAsc a b <= 0)
       (processedPokemons codepoint_compare [pikachu_record] "" None NameAsc).
Proof.
  assert (H : forall s1 s2, codepoint_compare s1 s2 = - codepoint_compare s2 s1).
  { intros s1 s2. unfold codepoint_compare. rewrite (String.compare_antisym s1 s2).
    destruct (String.compare s2 s1); reflexivity. }
  split; [exact H | apply processedPokemons_sorted; exact H].
Defined.

Lemma ascii_toLower_idempotent (c : ascii) : ascii_toLower (ascii_toLower c) = ascii_toLower c.
Proof.
  destruct c as [[] [] [] [] [] [] [] []]; vm_compute; reflexivity.
Qed.

Lemma toLowerCase_idempotent (s : string) : toLowerCase (toLowerCase s) = toLowerCase s.
Proof.
  unfold toLowerCase. rewrite list_ascii_of_string_of_list_ascii, map_map.
  f_equal. apply map_ext. apply ascii_toLower_idempotent.
Qed.

Lemma toLowerCase_empty (s : string) : String.eqb (toLowerCase s) "" = String.eqb s "".
Proof. destruct s; reflexivity. Qed.

(** The name search of the collection ignores the case of the query. *)
Theorem processedPokemons_query_case_insensitive (localeCompare : string -> string -> Z)
    (myPokemons : list CaughtPokemon) (searchQuery : string)
    (selectedType : option string) (sortBy : SortOption) :
  processedPokemons localeCompare myPokemons (toLowerCase searchQuery) selectedType sortBy
  = processedPokemons localeCompare myPokemons searchQuery selectedType sortBy.
Proof.
  unfold processedPokemons. rewrite toLowerCase_empty, toLowerCase_idempotent.
  reflexivity.
Qed.

(** Toggling the same id twice gives back the selection. *)
Theorem togglePokemonSelection_involutive (selectedIds : gset Z) (id : Z) :
  togglePokemonSelection (togglePokemonSelection selectedIds id) id = selectedIds.
Proof.
  unfold togglePokemonSelection.
  destruct (decide (id ∈ selectedIds)) as [Hin | Hout].
  - rewrite decide_False by set_solver. apply set_eq. intros x.
    destruct (decide (x = id)); set_solver.
  - rewrite decide_True by set_solver. apply set_eq. intros x. set_solver.
Qed.

(** From an empty selection, [selectAll] selects every shown id, and a
    second [selectAll] clears it, when the shown ids are distinct. *)
Theorem selectAll_twice_clears (processed : list CaughtPokemon) :
  NoDup (map c_id processed) -> processed <> [] ->
  selectAll ∅ processed = list_to_set (map c_id processed)
  /\ selectAll (selectAll ∅ processed) processed = ∅.
Proof.
  intros Hnd Hne. unfold selectAll.
  assert (H0 : size (∅ : gset Z) <> List.length processed).
  { rewrite size_empty. destruct processed; [contradiction | discriminate]. }
  rewrite decide_False by exact H0. split; [reflexivity |].
  rewrite decide_True; [reflexivity |].
  rewrite size_list_to_set by exact Hnd. apply length_map.
Qed.

Lemma selectAll_twice_clears_witness :
  selectAll ∅ [pikachu_record] = list_to_set (map c_id [pikachu_record])
  /\ selectAll (selectAll ∅ [pikachu_record]) [pikachu_record] = ∅.
Proof.
  apply selectAll_twice_clears; [| discriminate].
  simpl. constructor; [apply not_elem_of_nil | constructor].
Defined.

(** Releasing a non-empty selection always leaves selection mode with an
    empty selection, also when the delete fails (the store never rejects);
    the store loses the selected ids on success and keeps them on failure. *)
Theorem handleRelease_clears_selection (isSelectionMode : bool) (selectedIds : gset Z)
    (env : Env) (w : World) :
  size selectedIds <> 0%nat ->
  let (o, w') := handleRelease isSelectionMode selectedIds env w in
  o = Fulfilled (false, ∅)
  /\ caughtIds w' = match env_bulkDelete_fault env (elements selectedIds) with
                    | None => caughtIds w ∖ selectedIds
                    | Some _ => caughtIds w
                    end.
Proof.
  intros Hs. unfold handleRelease. rewrite decide_False by exact Hs.
  assert (He : elements selectedIds <> []).
  { intros He. apply Hs. unfold size, set_size. simpl. rewrite He. reflexivity. }
  pose proof (list_to_set_elements_L selectedIds) as Hl.
  destruct (elements selectedIds) as [| id ids] eqn:E; [contradiction |].
  unfold releasePokemon, db_bulkDelete. unfold_m.
  destruct (env_bulkDelete_fault env (id :: ids)); simpl; split; try reflexivity.
  rewrite (foldl_difference (caughtIds w ∖ {[id]}) ids), <- Hl. set_solver.
Qed.

Lemma handleRelease_clears_selection_witness :
  let (o, w') := handleRelease true {[25]} (sample_env (Fulfilled "AA") None None)
                   world_with_pikachu in
  o = Fulfilled (false, ∅)
  /\ caughtIds w' = match env_bulkDelete_fault (sample_env (Fulfilled "AA") None None)
                            (elements ({[25]} : gset Z)) with
                    | None => caughtIds world_with_pikachu ∖ {[25]}
                    | Some _ => caughtIds world_with_pikachu
                    end.
Proof.
  apply handleRelease_clears_selection. rewrite size_singleton. discriminate.
Defined.

Lemma rfc4180_quoted_body_escape (n : string) :
  rfc4180_quoted_body (escape_quotes n ++ String quote "")%string = Some n.
Proof.
  induction n as [| c n IH]; [reflexivity |]. simpl.
  destruct (Ascii.eqb_spec c quote) as [-> | Hc].
  - rewrite !string_app_cons. simpl. rewrite IH. reflexivity.
  - rewrite string_app_cons. simpl.
    apply Ascii.eqb_neq in Hc. rewrite Hc, IH. reflexivity.
Qed.

(** A non-empty note exported by [safeNote] reads back unchanged by an
    RFC 4180 reader: commas, quotes and line breaks stay in the field. *)
Theorem safeNote_roundtrip (n : string) :
  n <> ""%string -> rfc4180_unquote (safeNote (Some n)) = Some n.
Proof.
  intros Hne. unfold safeNote. apply String.eqb_neq in Hne. rewrite Hne.
  unfold rfc4180_unquote. rewrite Ascii.eqb_refl. apply rfc4180_quoted_body_escape.
Qed.

Lemma safeNote_roundtrip_witness :
  rfc4180_unquote (safeNote (Some (String quote "Cool, strong"))) = Some (String quote "Cool, strong").
Proof. apply safeNote_roundtrip. discriminate. Defined.

Lemma filter_request_logs_all (urls : list string) :
  List.length (List.filter is_api_request
                 (map (fun u => request_log (detail_path u)) urls)) = List.length urls.
Proof. induction urls as [| u urls IH]; simpl; [reflexivity | rewrite IH; reflexivity]. Qed.

Lemma filter_error_logs_count (env : Env) (urls : list string) :
  List.length (List.filter is_api_error
                 (List.concat (map (fun u => error_log (detail_path u)
                                                         (fetch_details env u)) urls)))
  = List.length (List.filter is_rejected (map (fetch_details env) urls)).
Proof.
  induction urls as [| u urls IH]; simpl; [reflexivity |].
  rewrite List.filter_app, length_app, IH.
  destruct (fetch_details env u); reflexivity.
Qed.

(** Every request of the feed is logged by the request interceptor (the
    list and each reference), and each lookup dropped from the page is
    logged once by the error interceptor: the API error lines number [K],
    the count the warning carries. *)
Theorem getPokemonList_logs_requests_and_failures (env : Env) (w : World)
    (limit offset : Z) (data : list ListItem) :
  env_api_list env limit offset = Fulfilled data ->
  let K := List.length (List.filter is_rejected
                          (map (fun it => fetch_details env (li_url it)) data)) in
  exists new, logs (snd (getPokemonList limit offset env w)) = logs w ++ new
    /\ List.length (List.filter is_api_request new) = S (List.length data)
    /\ List.length (List.filter is_api_error new) = K.
Proof.
  intros Hl. simpl. rewrite (getPokemonList_run env w limit offset data Hl). simpl.
  eexists. split; [reflexivity |]. simpl.
  rewrite !List.filter_app, filter_error_logs, (filter_request_logs is_api_error)
    by reflexivity.
  rewrite !length_app, filter_request_logs_all, filter_error_logs_count, map_map, length_map.
  destruct (decide _); simpl; split; lia.
Qed.

Lemma getPokemonList_logs_requests_and_failures_witness :
  exists new,
    logs (snd (getPokemonList 20 0 (api_env [item_25; item_26] get_only_25) empty_world))
      = [] ++ new
    /\ List.length (List.filter is_api_request new) = 3%nat
    /\ List.length (List.filter is_api_error new) = 1%nat.
Proof.
  exact (getPokemonList_logs_requests_and_failures (api_env [item_25; item_26] get_only_25)
           empty_world 20 0 [item_25; item_26] eq_refl).
Defined.

(** The search hydration logs one request line per name shown and one API
    error line per failed lookup among them, also the failures that come
    after [Promise.all] has already rejected. *)
Theorem searchQueryFn_logs_requests_and_failures (env : Env) (w : World) (q : string)
    (page : nat) (names : list ListItem) :
  let shown := itemsToShow (searchFilter q names) page in
  exists new, logs (snd (searchQueryFn q page (Some names) env w)) = logs w ++ new
    /\ List.length (List.filter is_api_request new) = List.length shown
    /\ List.length (List.filter is_api_error new)
       = List.length (List.filter is_rejected
                        (map (fun it => fetch_details env (li_url it)) shown)).
Proof.
  simpl. unfold searchQueryFn. unfold_m.
  eexists. split; [rewrite <- app_assoc; reflexivity |].
  rewrite !List.filter_app, filter_error_logs, (filter_request_logs is_api_error)
    by reflexivity.
  rewrite !length_app, filter_request_logs_all, filter_error_logs_count, map_map, length_map.
  simpl. split; lia.
Qed.
